(** * The Sudoku candidate grid of [examples/sudoku/src/entity.h]

    A shallow embedding of the class [Puzzle] (its constructor, the three
    unit getters and [setValue]) and of [main], and the properties of them
    that the design document states or that the code shows.

    Modelling choices, all taken from the source:
    - [Options = std::set<int>] is a finite set of integers, [gset Z];
      [std::set] keeps its elements in increasing order, so [*s.begin()] is
      the least element.
    - [Grid = std::vector<std::vector<Options>>] is a list of rows, each a
      list of cells.  [v[i]] on a vector does no bounds check: indexing
      out of range is undefined behaviour, which the model records as the
      outcome [Undefined] instead of inventing a result.
    - [size_t] arguments are [nat]; the [int] argument [value], the [int]
      candidates and the [int] loop counters are [Z].  The counters of the
      constructor are incremented up to [size + 1]: [construct] runs its
      loops with the signed overflow of [i++] at [INT_MAX] written out (it
      is undefined behaviour, and the constructor then builds nothing),
      and [new_Puzzle] is the object it builds when no counter overflows,
      which is when [size < 2^31 - 1].
    - a member function is a function from the object's state to an
      [outcome]: it returns, or throws with the state it leaves behind, or
      is undefined. *)

From stdpp Require Import gmap list list_numbers sorting strings pretty.

#[local] Set Warnings "-clear-no-such-hyp".

Local Open Scope Z_scope.

(** ** Data model *)

(** [using Options = std::set<int>;] *)
Abbreviation Options := (gset Z).

(** [using Grid = std::vector<std::vector<Options>>;] *)
Abbreviation Grid := (list (list Options)).

(** [class Puzzle { ... Grid grid; };] *)
Record Puzzle : Type := mkPuzzle { grid : Grid }.

(** [std::invalid_argument(what)], the only exception the class throws. *)
Inductive exception : Type :=
  | invalid_argument (what : string).

(** What a call of a member function does to the object. *)
Inductive outcome (A : Type) : Type :=
  | Returns (a : A) (p : Puzzle)
  | Throws (e : exception) (p : Puzzle)
  | Undefined.
Arguments Returns {A} a p.
Arguments Throws {A} e p.
Arguments Undefined {A}.

Definition method (A : Type) : Type := Puzzle → outcome A.

(** Sequencing: a statement that throws or is undefined ends the call. *)
#[global] Instance method_ret : MRet method := λ A a p, Returns a p.

#[global] Instance method_bind : MBind method := λ A B k m p,
  match m p with
  | Returns a p' => k a p'
  | Throws e p' => Throws e p'
  | Undefined => Undefined
  end.

(** [throw e;] *)
Definition throw {A} (e : exception) : method A := λ p, Throws e p.

(** [grid.size()] *)
Definition grid_size : method nat := λ p, Returns (length (grid p)) p.

(** [grid[row][col] = o;] with both subscripts unchecked. *)
Definition assign_cell (row col : nat) (o : Options) : method unit :=
  λ p, match grid p !! row with
       | None => Undefined
       | Some r =>
           if decide (col < length r)%nat
           then Returns () (mkPuzzle (<[row := <[col := o]> r]> (grid p)))
           else Undefined
       end.

(** [for (auto &cell : grid[row]) { cell = body(cell); }], for a body that
    only rewrites the cell it is given. *)
Definition for_each_cell (row : nat) (body : Options → Options) : method unit :=
  λ p, match grid p !! row with
       | None => Undefined
       | Some r => Returns () (mkPuzzle (<[row := body <$> r]> (grid p)))
       end.

(** [*s.begin()]: the first element of the ordered set, when there is one. *)
Definition begin (s : Options) : option Z := head (merge_sort Z.le (elements s)).

(** ** The constructor, [Puzzle::Puzzle(size_t size)] *)

(** [for (auto i = 1; i <= size; i++) defaultData.insert(i);], when the
    counter does not overflow. *)
Definition defaultData (size : nat) : Options :=
  foldl (λ acc i, {[i]} ∪ acc) ∅ (seqZ 1 (Z.of_nat size)).

(** [grid[i].resize(size); for (int j = 0; j < size; j++) grid[i][j] = d;] *)
Definition fill_row (size : nat) (d : Options) (r : list Options) : list Options :=
  foldl (λ r j, <[j := d]> r) (resize size ∅ r) (seq 0 size).

(** The object the constructor builds, when no counter overflows. *)
Definition new_Puzzle (size : nat) : Puzzle :=
  let d := defaultData size in
  let g := resize size [] [] in
  mkPuzzle (foldl (λ g i, alter (fill_row size d) i g) g (seq 0 size)).

(** The greatest [int]. *)
Definition INT_MAX : Z := 2147483647.

(** [for (int i = first; ...; i++) a = body(i, a);] for a test that lets
    the body run [count] times.  The counter is an [int]: incrementing it
    at [INT_MAX] is a signed overflow, after which nothing is defined
    ([None]). *)
Fixpoint for_int {A} (count : nat) (i : Z) (body : Z → A → option A) (a : A) :
    option A :=
  match count with
  | O => Some a
  | S count =>
      a' ← body i a;
      if decide (i < INT_MAX) then for_int count (i + 1) body a' else None
  end.

(** The constructor with its three loops as the source has them.  The test
    [i <= size] of the first lets [i = 1, ..., size] through and the tests
    [i < size], [j < size] of the others [0, ..., size - 1]: every loop
    runs [size] times and then increments its counter once more. *)
Definition construct (size : nat) : option Puzzle :=
  d ← for_int size 1 (λ i acc, Some ({[i]} ∪ acc)) (∅ : Options);
  g ← for_int size 0
        (λ i g,
           r ← g !! Z.to_nat i;
           r' ← for_int size 0 (λ j r, Some (<[Z.to_nat j := d]> r))
                  (resize size ∅ r);
           Some (<[Z.to_nat i := r']> g))
        (resize size [] [] : Grid);
  Some (mkPuzzle g).

(** ** The unit getters *)

Definition getRow (n : nat) : method (list Options) := mret [].
Definition getColumn (m : nat) : method (list Options) := mret [].
Definition getBox (n : nat) : method (list Options) := mret [].

(** ** [Puzzle::setValue(size_t row, size_t col, int value)] *)

(** The body of the loop over the row:
    [if (cell.size() == 1 && *cell.begin() == value) continue;
     else cell.erase(value);] *)
Definition erase_step (value : Z) (cell : Options) : Options :=
  if bool_decide (size cell = 1%nat) && bool_decide (begin cell = Some value)
  then cell
  else cell ∖ {[value]}.

(** [value] is compared with [grid.size()] as a [size_t]; the comparison is
    only reached with [value > 0], where the conversion keeps the value. *)
Definition setValue (row col : nat) (value : Z) : method unit :=
  n ← grid_size;
  if (value <=? 0) || (Z.of_nat n <? value)
  then throw (invalid_argument ("Bad value " +:+ pretty value))
  else
    assign_cell row col {[value]};;
    for_each_cell row (erase_step value).

(** A sequence of calls [setValue(row, col, value)] on one object, stopping
    at the first one that does not return. *)
Fixpoint setValues (calls : list (nat * nat * Z)) : method unit :=
  match calls with
  | [] => mret ()
  | (row, col, value) :: calls => setValue row col value;; setValues calls
  end.

(** ** Reading the grid *)

(** The candidate set of the cell at [(row, col)], when there is one. *)
Definition cell_at (g : Grid) (row col : nat) : option Options :=
  r ← g !! row; r !! col.

(** [(row, col)] are valid subscripts of [g]. *)
Definition in_range (g : Grid) (row col : nat) : Prop :=
  is_Some (cell_at g row col).

(** An N-by-N grid: as many cells in every row as there are rows. *)
Definition square (g : Grid) : Prop :=
  Forall (λ r, length r = length g) g.

(** The arguments of a call [setValue(row, col, value)] that name a cell and
    a value of an N-by-N grid. *)
Definition valid_call (N : nat) (call : nat * nat * Z) : Prop :=
  (call.1.1 < N)%nat ∧ (call.1.2 < N)%nat ∧ 1 ≤ call.2 ≤ Z.of_nat N.

(** ** [main] *)

(** [std::endl] *)
Definition endl : string := String (Ascii.ascii_of_nat 10) EmptyString.

(** [for (auto it = cell.begin(); it != cell.end(); it++) std::cout << *it << " ";
     std::cout << std::endl;] *)
Definition print_cell (cell : Options) : string :=
  foldr (λ x out, pretty x +:+ " " +:+ out) endl (merge_sort Z.le (elements cell)).

(** [std::cout << "val: " << *a.grid[1][1].begin() << std::endl;], which
    dereferences unchecked subscripts and the first element of the cell. *)
Definition print_val (a : Puzzle) : option string :=
  cell ← cell_at (grid a) 1 1;
  v ← begin cell;
  Some ("val: " +:+ pretty v +:+ endl).

(** What [main] writes to [std::cout]; [None] when it does not run to its
    end (an exception nobody catches, or an undefined step). *)
Definition main : option string :=
  match setValue 1 1 5 (new_Puzzle 9) with
  | Returns _ a =>
      first ← print_val a;
      cells ← grid a !! 1%nat;
      last ← print_val a;
      Some (first +:+ foldr (λ cell out, print_cell cell +:+ out) EmptyString cells
              +:+ last)
  | _ => None
  end.

Example new_Puzzle_2 :
  grid (new_Puzzle 2) = [[{[1; 2]}; {[1; 2]}]; [{[1; 2]}; {[1; 2]}]].
Proof. vm_compute. reflexivity. Qed.

Example construct_2 : construct 2 = Some (new_Puzzle 2).
Proof. vm_compute. reflexivity. Qed.

Example setValue_main :
  setValue 1 1 5 (new_Puzzle 9) =
  Returns () (mkPuzzle (<[1%nat := <[1%nat := {[5]}]> (replicate 9 ({[1;2;3;4;6;7;8;9]} : Options))]>
                          (grid (new_Puzzle 9)))).
Proof. vm_compute. reflexivity. Qed.

Example main_output :
  main =
  Some ("val: 5" +:+ endl +:+
        "1 2 3 4 6 7 8 9 " +:+ endl +:+
        "5 " +:+ endl +:+
        "1 2 3 4 6 7 8 9 " +:+ endl +:+
        "1 2 3 4 6 7 8 9 " +:+ endl +:+
        "1 2 3 4 6 7 8 9 " +:+ endl +:+
        "1 2 3 4 6 7 8 9 " +:+ endl +:+
        "1 2 3 4 6 7 8 9 " +:+ endl +:+
        "1 2 3 4 6 7 8 9 " +:+ endl +:+
        "1 2 3 4 6 7 8 9 " +:+ endl +:+
        "val: 5" +:+ endl).
Proof. vm_compute. reflexivity. Qed.

(** ** The constructor builds the full grid *)

Section constructor.

(** A loop [for (j = a; j < a + k; j++) l = upd l j] whose step rewrites
    position [j] only rewrites exactly the positions [a .. a + k - 1]. *)
Lemma foldl_seq_lookup {A} (upd : list A → nat → list A) (f : A → A) :
  (∀ l j i, upd l j !! i = if decide (i = j) then f <$> l !! i else l !! i) →
  ∀ k a l i,
    foldl upd l (seq a k) !! i =
    if decide (a ≤ i < a + k)%nat then f <$> l !! i else l !! i.
Proof.
  intros Hupd k. induction k as [|k IH]; intros a l i; simpl.
  - case_decide; [lia | done].
  - rewrite IH, Hupd.
    destruct (decide (i = a)) as [->|Hne]; repeat case_decide; try lia; done.
Qed.

Lemma insert_lookup_fmap {A} (d : A) (l : list A) (j i : nat) :
  <[j := d]> l !! i = if decide (i = j) then (λ _, d) <$> l !! i else l !! i.
Proof.
  case_decide as Hij.
  - subst j. destruct (decide (i < length l)%nat) as [Hlt|Hge].
    + rewrite list_lookup_insert_eq by done.
      destruct (lookup_lt_is_Some_2 l i Hlt) as [x ->]. done.
    + rewrite list_insert_ge by lia. rewrite (lookup_ge_None_2 l i) by lia. done.
  - by rewrite list_lookup_insert_ne.
Qed.

Lemma alter_lookup_fmap {A} (f : A → A) (l : list A) (j i : nat) :
  alter f j l !! i = if decide (i = j) then f <$> l !! i else l !! i.
Proof.
  case_decide as Hij.
  - subst j. apply list_lookup_alter_eq.
  - by apply list_lookup_alter_ne.
Qed.

Lemma fill_row_replicate (size : nat) (d : Options) (r : list Options) :
  fill_row size d r = replicate size d.
Proof.
  unfold fill_row. apply list_eq; intros i.
  rewrite (foldl_seq_lookup _ (λ _, d)) by (intros; apply insert_lookup_fmap).
  case_decide as Hi.
  - rewrite lookup_replicate_2 by lia.
    destruct (lookup_lt_is_Some_2 (resize size ∅ r) i) as [x ->]; [|done].
    rewrite length_resize. lia.
  - rewrite (lookup_ge_None_2 (replicate size d)) by (rewrite length_replicate; lia).
    apply lookup_ge_None_2. rewrite length_resize. lia.
Qed.

Lemma new_Puzzle_replicate (size : nat) :
  grid (new_Puzzle size) = replicate size (replicate size (defaultData size)).
Proof.
  unfold new_Puzzle; simpl. apply list_eq; intros i.
  rewrite (foldl_seq_lookup _ (fill_row size (defaultData size)))
    by (intros; apply alter_lookup_fmap).
  rewrite resize_nil. case_decide as Hi.
  - rewrite !lookup_replicate_2 by lia. simpl. by rewrite fill_row_replicate.
  - rewrite !(proj1 (lookup_replicate_None _ _ _)) by lia. done.
Qed.

(** The first loop inserts exactly the values [1 .. size]. *)
Lemma elem_of_foldl_insert (l : list Z) (acc : Options) (x : Z) :
  x ∈ foldl (λ acc i, {[i]} ∪ acc) acc l ↔ x ∈ l ∨ x ∈ acc.
Proof.
  revert acc. induction l as [|y l IH]; intros acc; simpl.
  - set_solver.
  - rewrite IH. set_solver.
Qed.

Lemma elem_of_defaultData (size : nat) (x : Z) :
  x ∈ defaultData size ↔ 1 ≤ x ≤ Z.of_nat size.
Proof.
  unfold defaultData. rewrite elem_of_foldl_insert, elem_of_seqZ.
  split; [intros [?|H]; [lia | set_solver] | intros; left; lia].
Qed.

Lemma defaultData_nonempty (size : nat) :
  (1 ≤ size)%nat → defaultData size ≠ ∅.
Proof.
  intros Hsize Hempty.
  assert (1 ∈ defaultData size) as H by (apply elem_of_defaultData; lia).
  rewrite Hempty in H. set_solver.
Qed.

(** The loops of [construct] against the loops without overflow *)

Lemma for_int_foldl {A} (P : A → Prop) (f : A → Z → A)
    (body : Z → A → option A) (count : nat) :
  ∀ (i : Z) (a : A),
    (∀ j a, i ≤ j < i + Z.of_nat count → P a → body j a = Some (f a j) ∧ P (f a j)) →
    P a →
    i + Z.of_nat count ≤ INT_MAX →
    for_int count i body a = Some (foldl f a (seqZ i (Z.of_nat count))).
Proof.
  induction count as [|count IH]; intros i a Hbody Ha Hmax; [done|].
  rewrite seqZ_cons by lia. simpl.
  destruct (Hbody i a ltac:(lia) Ha) as [-> Ha']. simpl.
  rewrite decide_True by lia.
  replace (Z.pred (Z.of_nat (S count))) with (Z.of_nat count) by lia.
  replace (Z.succ i) with (i + 1) by lia.
  apply IH; [|done|lia]. intros j a0 Hj. apply Hbody. lia.
Qed.

Lemma for_int_overflow {A} (f : A → Z → A) (count : nat) :
  ∀ (i : Z) (a : A),
    i ≤ INT_MAX →
    INT_MAX < i + Z.of_nat count →
    for_int count i (λ j a, Some (f a j)) a = None.
Proof.
  induction count as [|count IH]; intros i a Hi Hmax; [lia|].
  simpl. case_decide as Hlt; [|done]. apply IH; lia.
Qed.

Lemma foldl_seqZ_nat {A} (f : A → nat → A) (n : nat) :
  ∀ (k : nat) (a : A),
    foldl (λ a j, f a (Z.to_nat j)) a (seqZ (Z.of_nat k) (Z.of_nat n)) =
    foldl f a (seq k n).
Proof.
  induction n as [|n IH]; intros k a; [done|].
  rewrite seqZ_cons by lia. simpl. rewrite Nat2Z.id.
  replace (Z.pred (Z.of_nat (S n))) with (Z.of_nat n) by lia.
  replace (Z.succ (Z.of_nat k)) with (Z.of_nat (S k)) by lia.
  apply IH.
Qed.

Lemma insert_alter_lookup {A} (f : A → A) (l : list A) (k : nat) (x : A) :
  l !! k = Some x → <[k := f x]> l = alter f k l.
Proof.
  intros Hk. apply list_eq. intros i.
  rewrite insert_lookup_fmap, alter_lookup_fmap.
  case_decide as Hi; [|done]. subst i. by rewrite Hk.
Qed.

Lemma length_foldl_alter {A} (f : A → A) (l : list A) (ks : list nat) :
  length (foldl (λ l k, alter f k l) l ks) = length l.
Proof.
  revert l. induction ks as [|k ks IH]; intros l; [done|].
  simpl. by rewrite IH, length_alter.
Qed.

(** As long as [size < INT_MAX] no counter overflows, and the constructor
    builds [new_Puzzle size]. *)
Lemma construct_new_Puzzle (size : nat) :
  Z.of_nat size < INT_MAX → construct size = Some (new_Puzzle size).
Proof.
  intros Hsize. unfold construct.
  rewrite (for_int_foldl (λ _, True) (λ acc i, {[i]} ∪ acc)) by (done || lia).
  simpl. fold (defaultData size).
  rewrite (for_int_foldl (λ g, length g = size)
             (λ g i, alter (fill_row size (defaultData size)) (Z.to_nat i) g)).
  - simpl. unfold new_Puzzle. do 2 f_equal.
    apply (foldl_seqZ_nat (λ g i, alter (fill_row size (defaultData size)) i g) size 0).
  - intros j g Hj Hg.
    destruct (lookup_lt_is_Some_2 g (Z.to_nat j)) as [r Hr]; [lia|].
    rewrite Hr. simpl.
    rewrite (for_int_foldl (λ _, True) (λ r j, <[Z.to_nat j := defaultData size]> r))
      by (done || lia).
    simpl.
    rewrite (foldl_seqZ_nat (λ r j, <[j := defaultData size]> r) size 0).
    fold (fill_row size (defaultData size) r).
    split; [|by rewrite length_alter].
    f_equal. by apply insert_alter_lookup.
  - apply length_resize.
  - lia.
Qed.

(** From [size = INT_MAX] on, the counter of the first loop overflows. *)
Lemma construct_overflow (size : nat) :
  INT_MAX ≤ Z.of_nat size → construct size = None.
Proof.
  intros Hsize. unfold construct.
  rewrite (for_int_overflow (λ acc i, {[i]} ∪ acc)); [done|unfold INT_MAX|]; lia.
Qed.

(** C3, as stated, fails: for the size N = 2^31 the constructor builds no
    grid.  Its first loop counts with an [int] up to N and the candidates
    are [int]s, so no cell can hold {1..N}: the counter overflows on its
    way. *)
Lemma construct_no_grid_at_2_31 :
  construct (Z.to_nat 2147483648) = None.
Proof.
  apply construct_overflow. rewrite Z2Nat.id by lia. unfold INT_MAX. lia.
Qed.

(** C3, amended: for every size N below 2^31 - 1, [Puzzle(N)] is
    constructed and holds a grid of N rows of N cells, every cell one and
    the same candidate set, whose members are exactly the values 1..N. *)
Theorem construct_full (N : nat) :
  Z.of_nat N < INT_MAX →
  ∃ (p : Puzzle) (full : Options),
    construct N = Some p ∧
    (∀ x : Z, x ∈ full ↔ 1 ≤ x ≤ Z.of_nat N) ∧
    grid p = replicate N (replicate N full).
Proof.
  intros HN. exists (new_Puzzle N), (defaultData N). split; [|split].
  - by apply construct_new_Puzzle.
  - apply elem_of_defaultData.
  - apply new_Puzzle_replicate.
Qed.

Lemma construct_full_witness :
  Z.of_nat 9 < INT_MAX ∧
  ∃ (p : Puzzle) (full : Options),
    construct 9 = Some p ∧
    (∀ x : Z, x ∈ full ↔ 1 ≤ x ≤ Z.of_nat 9) ∧
    grid p = replicate 9 (replicate 9 full).
Proof.
  assert (Z.of_nat 9 < INT_MAX) as H9 by (unfold INT_MAX; lia).
  split; [exact H9|]. exact (construct_full 9 H9).
Defined.

End constructor.

(** ** The loop body of [setValue] *)

Section erase_step.

Implicit Types (cell : Options) (v : Z).

Lemma begin_singleton v : begin {[v]} = Some v.
Proof. unfold begin. by rewrite elements_singleton. Qed.

(** The guard [size() == 1 && *begin() == value] holds exactly of the
    singleton [{value}]. *)
Lemma fixed_to_spec cell v :
  size cell = 1%nat ∧ begin cell = Some v ↔ cell = {[v]}.
Proof.
  split.
  - intros [Hsize Hbegin].
    destruct (size_1_elem_of cell Hsize) as [x Hx].
    apply leibniz_equiv in Hx. subst cell.
    rewrite begin_singleton in Hbegin. congruence.
  - intros ->. split; [apply size_singleton | apply begin_singleton].
Qed.

Lemma erase_step_decide v cell :
  erase_step v cell = if decide (cell = {[v]}) then cell else cell ∖ {[v]}.
Proof.
  unfold erase_step. case_decide as Hcell.
  - apply fixed_to_spec in Hcell as [Hsize Hbegin].
    by rewrite !bool_decide_eq_true_2.
  - destruct (bool_decide (size cell = 1%nat)) eqn:Hsize; [|done].
    destruct (bool_decide (begin cell = Some v)) eqn:Hbegin; [|done].
    apply bool_decide_eq_true_1 in Hsize, Hbegin.
    destruct Hcell. by apply fixed_to_spec.
Qed.

Lemma erase_step_singleton v : erase_step v {[v]} = {[v]}.
Proof. rewrite erase_step_decide. by case_decide. Qed.

Lemma erase_step_subseteq v cell : erase_step v cell ⊆ cell.
Proof. rewrite erase_step_decide. case_decide; set_solver. Qed.

Lemma erase_step_keeps v cell x : x ∈ cell → x ≠ v → x ∈ erase_step v cell.
Proof. rewrite erase_step_decide. case_decide; set_solver. Qed.

Lemma erase_step_idem v cell :
  erase_step v (erase_step v cell) = erase_step v cell.
Proof.
  rewrite (erase_step_decide v cell). case_decide as Hcell.
  - subst cell. apply erase_step_singleton.
  - rewrite erase_step_decide. case_decide; set_solver.
Qed.

(** Erasing never empties a cell: a non-empty cell other than [{value}]
    holds some other value, and [{value}] itself is skipped. *)
Lemma erase_step_nonempty v cell : cell ≠ ∅ → erase_step v cell ≠ ∅.
Proof.
  intros Hne. rewrite erase_step_decide. case_decide as Hcell; [done|].
  intros Hempty. apply Hcell. apply set_eq. intros x. split.
  - intros Hx. destruct (decide (x = v)) as [->|Hxv]; [set_solver|].
    assert (x ∈ cell ∖ {[v]}) as H by set_solver.
    rewrite Hempty in H. set_solver.
  - intros Hx. apply elem_of_singleton in Hx as ->.
    destruct (set_choose_L cell Hne) as [y Hy].
    destruct (decide (y = v)) as [->|Hyv]; [done|].
    assert (y ∈ cell ∖ {[v]}) as H by set_solver.
    rewrite Hempty in H. set_solver.
Qed.

Lemma erase_step_size v cell : (size (erase_step v cell) ≤ size cell)%nat.
Proof. apply subseteq_size, erase_step_subseteq. Qed.

End erase_step.

(** ** What [setValue] does to the object *)

Section setValue.

Implicit Types (p : Puzzle) (g : Grid) (r : list Options) (v : Z).

Lemma in_range_inv g row col :
  in_range g row col ↔ ∃ r, g !! row = Some r ∧ (col < length r)%nat.
Proof.
  unfold in_range, cell_at. split.
  - intros [cell Hcell]. destruct (g !! row) as [r|] eqn:Hr; [|done].
    exists r. split; [done|]. apply lookup_lt_is_Some. by exists cell.
  - intros (r & -> & Hcol). simpl. by apply lookup_lt_is_Some.
Qed.

(** On an N-by-N grid the valid subscripts are the pairs below N. *)
Lemma in_range_square g row col :
  square g → in_range g row col ↔ (row < length g ∧ col < length g)%nat.
Proof.
  intros Hsq. rewrite in_range_inv. split.
  - intros (r & Hr & Hcol). split; [by eapply lookup_lt_Some|].
    by rewrite <- (proj1 (Forall_lookup _ _) Hsq row r Hr).
  - intros [Hrow Hcol]. destruct (lookup_lt_is_Some_2 g row Hrow) as [r Hr].
    exists r. split; [done|].
    by rewrite (proj1 (Forall_lookup _ _) Hsq row r Hr).
Qed.

Lemma cell_at_insert g row r' row' col' :
  (row < length g)%nat →
  cell_at (<[row := r']> g) row' col' =
  if decide (row' = row) then r' !! col' else cell_at g row' col'.
Proof.
  intros Hrow. unfold cell_at. case_decide as Heq.
  - subst row'. by rewrite list_lookup_insert_eq.
  - by rewrite list_lookup_insert_ne.
Qed.

(** The check on [value] comes first and decides alone whether the call
    throws; the object is then as it was. *)
Lemma setValue_throws p row col v :
  ¬ (1 ≤ v ≤ Z.of_nat (length (grid p))) →
  setValue row col v p = Throws (invalid_argument ("Bad value " +:+ pretty v)) p.
Proof.
  intros Hv. unfold setValue, mbind, method_bind, grid_size.
  destruct (v <=? 0) eqn:H0; [done|]. apply Z.leb_gt in H0.
  destruct (Z.of_nat (length (grid p)) <? v) eqn:HN; [done|].
  apply Z.ltb_ge in HN. lia.
Qed.

(** With a valid [value] and valid subscripts the call returns: the cell is
    overwritten, then the loop body runs over the whole row. *)
Lemma setValue_returns p row col v r :
  grid p !! row = Some r → (col < length r)%nat →
  1 ≤ v ≤ Z.of_nat (length (grid p)) →
  setValue row col v p =
  Returns () (mkPuzzle (<[row := erase_step v <$> <[col := {[v]}]> r]> (grid p))).
Proof.
  intros Hr Hcol Hv. unfold setValue, mbind, method_bind, grid_size.
  destruct (v <=? 0) eqn:H0; [apply Z.leb_le in H0; lia|].
  destruct (Z.of_nat (length (grid p)) <? v) eqn:HN; [apply Z.ltb_lt in HN; lia|].
  simpl. unfold assign_cell, for_each_cell. rewrite Hr.
  rewrite decide_True by done. simpl.
  rewrite list_lookup_insert_eq by (by eapply lookup_lt_Some).
  by rewrite list_insert_insert_eq.
Qed.

(** With a valid [value] and a subscript out of range the call reaches an
    unchecked [grid[row][col]]. *)
Lemma setValue_undefined p row col v :
  ¬ in_range (grid p) row col →
  1 ≤ v ≤ Z.of_nat (length (grid p)) →
  setValue row col v p = Undefined.
Proof.
  intros Hout Hv. unfold setValue, mbind, method_bind, grid_size.
  destruct (v <=? 0) eqn:H0; [apply Z.leb_le in H0; lia|].
  destruct (Z.of_nat (length (grid p)) <? v) eqn:HN; [apply Z.ltb_lt in HN; lia|].
  simpl. unfold assign_cell.
  destruct (grid p !! row) as [r|] eqn:Hr; [|done].
  case_decide as Hcol; [|done].
  destruct Hout. apply in_range_inv. eauto.
Qed.

(** The cells of the grid after a call that returns. *)
Lemma setValue_cells p row col v :
  in_range (grid p) row col →
  1 ≤ v ≤ Z.of_nat (length (grid p)) →
  ∃ p', setValue row col v p = Returns () p' ∧
    length (grid p') = length (grid p) ∧
    cell_at (grid p') row col = Some {[v]} ∧
    (∀ col', col' ≠ col →
       cell_at (grid p') row col' = erase_step v <$> cell_at (grid p) row col') ∧
    (∀ row', row' ≠ row → grid p' !! row' = grid p !! row').
Proof.
  intros (r & Hr & Hcol)%in_range_inv Hv.
  eexists. split; [by eapply setValue_returns|]. simpl.
  assert (row < length (grid p))%nat as Hrow by (by eapply lookup_lt_Some).
  split; [by rewrite length_insert|]. split; [|split].
  - rewrite cell_at_insert, decide_True by done.
    rewrite list_lookup_fmap, list_lookup_insert_eq by done.
    simpl. by rewrite erase_step_singleton.
  - intros col' Hne. rewrite cell_at_insert, decide_True by done.
    rewrite list_lookup_fmap, list_lookup_insert_ne by done.
    unfold cell_at. by rewrite Hr.
  - intros row' Hne. by rewrite list_lookup_insert_ne.
Qed.

(** The outcome tells which of the three cases the call was in. *)
Lemma setValue_Returns_inv p row col v p' :
  setValue row col v p = Returns () p' →
  in_range (grid p) row col ∧ 1 ≤ v ≤ Z.of_nat (length (grid p)).
Proof.
  intros Hret.
  destruct (decide (1 ≤ v ≤ Z.of_nat (length (grid p)))) as [Hv|Hv].
  - split; [|done]. destruct (decide (in_range (grid p) row col)) as [|Hout]; [done|].
    rewrite setValue_undefined in Hret by done. discriminate.
  - rewrite setValue_throws in Hret by done. discriminate.
Qed.

Lemma setValue_Throws_inv p row col v e p' :
  setValue row col v p = Throws e p' →
  ¬ (1 ≤ v ≤ Z.of_nat (length (grid p))) ∧
  e = invalid_argument ("Bad value " +:+ pretty v) ∧ p' = p.
Proof.
  intros Hthrow.
  destruct (decide (1 ≤ v ≤ Z.of_nat (length (grid p)))) as [Hv|Hv].
  - destruct (decide (in_range (grid p) row col)) as [Hin|Hout].
    + destruct (setValue_cells p row col v Hin Hv) as (p'' & Hret & _). congruence.
    + rewrite setValue_undefined in Hthrow by done. discriminate.
  - rewrite setValue_throws in Hthrow by done. inversion Hthrow; by subst.
Qed.

(** A cell that is empty after the call was empty before it. *)
Lemma setValue_no_new_empty p row col v p' row' col' :
  setValue row col v p = Returns () p' →
  cell_at (grid p') row' col' = Some ∅ →
  cell_at (grid p) row' col' = Some ∅.
Proof.
  intros Hret Hempty.
  destruct (setValue_Returns_inv _ _ _ _ _ Hret) as [Hin Hv].
  destruct (setValue_cells p row col v Hin Hv) as (p'' & Hret' & _ & Htarget & Hrow & Hrest).
  assert (p'' = p') as -> by congruence.
  destruct (decide (row' = row)) as [->|Hrow'].
  - destruct (decide (col' = col)) as [->|Hcol'].
    + rewrite Htarget in Hempty.
      assert (({[v]} : Options) = ∅) as Hv' by congruence. set_solver.
    + rewrite Hrow in Hempty by done.
      destruct (cell_at (grid p) row col') as [cell|]; [|done].
      simpl in Hempty. f_equal.
      destruct (decide (cell = ∅)) as [|Hne]; [done|].
      destruct (erase_step_nonempty v cell Hne). congruence.
  - unfold cell_at in *. by rewrite <- Hrest.
Qed.

End setValue.

(** ** Assignment: which cells change, and how *)

Lemma in_range_new_Puzzle (N row col : nat) :
  (row < N)%nat → (col < N)%nat → in_range (grid (new_Puzzle N)) row col.
Proof.
  intros Hrow Hcol. rewrite new_Puzzle_replicate. unfold in_range, cell_at.
  rewrite lookup_replicate_2 by done. simpl. by rewrite lookup_replicate_2.
Qed.

Lemma length_new_Puzzle (N : nat) : length (grid (new_Puzzle N)) = N.
Proof. by rewrite new_Puzzle_replicate, length_replicate. Qed.

(** C1: with row and col in range and v in 1..N, [setValue(row, col, v)]
    returns, and it eliminates v in its own row only: every other cell of
    that row loses v unless its candidate set is exactly {v}, in which case
    it is kept, and every other row is the row it was. *)
Theorem setValue_eliminates_in_own_row (p : Puzzle) (row col : nat) (v : Z) :
  in_range (grid p) row col →
  1 ≤ v ≤ Z.of_nat (length (grid p)) →
  ∃ p', setValue row col v p = Returns () p' ∧
    (∀ col' cell, col' ≠ col → cell_at (grid p) row col' = Some cell →
       cell_at (grid p') row col' =
       Some (if decide (cell = {[v]}) then cell else cell ∖ {[v]})) ∧
    (∀ row', row' ≠ row → grid p' !! row' = grid p !! row').
Proof.
  intros Hin Hv.
  destruct (setValue_cells p row col v Hin Hv) as (p' & Hret & _ & _ & Hrow & Hrest).
  exists p'. split; [done|]. split; [|done].
  intros col' cell Hne Hcell. by rewrite Hrow, Hcell, <- erase_step_decide.
Qed.

Lemma setValue_eliminates_in_own_row_witness :
  in_range (grid (new_Puzzle 9)) 1 1 ∧
  1 ≤ 5 ≤ Z.of_nat (length (grid (new_Puzzle 9))) ∧
  ∃ p', setValue 1 1 5 (new_Puzzle 9) = Returns () p' ∧
    (∀ col' cell, col' ≠ 1%nat → cell_at (grid (new_Puzzle 9)) 1 col' = Some cell →
       cell_at (grid p') 1 col' =
       Some (if decide (cell = {[5]}) then cell else cell ∖ {[5]})) ∧
    (∀ row', row' ≠ 1%nat → grid p' !! row' = grid (new_Puzzle 9) !! row').
Proof.
  assert (in_range (grid (new_Puzzle 9)) 1 1) as Hin
    by (apply in_range_new_Puzzle; lia).
  assert (1 ≤ 5 ≤ Z.of_nat (length (grid (new_Puzzle 9)))) as Hv
    by (rewrite length_new_Puzzle; lia).
  split; [exact Hin|]. split; [exact Hv|].
  exact (setValue_eliminates_in_own_row (new_Puzzle 9) 1 1 5 Hin Hv).
Defined.

(** C2, as stated, fails: on a fresh 2-by-2 grid [setValue(0, 0, 1)] takes
    the candidate 1 away from the cell (0, 1), which is not the cell
    assigned. *)
Lemma setValue_changes_row_peer :
  in_range (grid (new_Puzzle 2)) 0 0 ∧
  1 ≤ 1 ≤ Z.of_nat (length (grid (new_Puzzle 2))) ∧
  ∃ p', setValue 0 0 1 (new_Puzzle 2) = Returns () p' ∧
    cell_at (grid (new_Puzzle 2)) 0 1 = Some {[1; 2]} ∧
    cell_at (grid p') 0 1 = Some {[2]} ∧
    cell_at (grid p') 0 1 ≠ cell_at (grid (new_Puzzle 2)) 0 1.
Proof.
  split; [apply in_range_new_Puzzle; lia|].
  split; [rewrite length_new_Puzzle; lia|].
  eexists. split; [vm_compute; reflexivity|].
  split; [vm_compute; reflexivity|].
  split; [vm_compute; reflexivity|].
  vm_compute. discriminate.
Qed.

(** C2, amended: with row and col in range and v in 1..N, after
    [setValue(row, col, v)] every cell of every other row has exactly the
    candidate set it had before the call; a cell of the same row other than
    (row, col) keeps all its candidates except possibly v. *)
Theorem setValue_frame_other_rows (p : Puzzle) (row col : nat) (v : Z) :
  in_range (grid p) row col →
  1 ≤ v ≤ Z.of_nat (length (grid p)) →
  ∃ p', setValue row col v p = Returns () p' ∧
    (∀ row' col', row' ≠ row →
       cell_at (grid p') row' col' = cell_at (grid p) row' col') ∧
    (∀ col' cell, col' ≠ col → cell_at (grid p) row col' = Some cell →
       ∃ cell', cell_at (grid p') row col' = Some cell' ∧
         cell' ⊆ cell ∧ cell ∖ {[v]} ⊆ cell').
Proof.
  intros Hin Hv.
  destruct (setValue_cells p row col v Hin Hv) as (p' & Hret & _ & _ & Hrow & Hrest).
  exists p'. split; [done|]. split.
  - intros row' col' Hne. unfold cell_at. by rewrite Hrest.
  - intros col' cell Hne Hcell. exists (erase_step v cell).
    rewrite Hrow, Hcell by done. split; [done|].
    split; [apply erase_step_subseteq|].
    intros x Hx. apply erase_step_keeps; set_solver.
Qed.

Lemma setValue_frame_other_rows_witness :
  in_range (grid (new_Puzzle 2)) 0 0 ∧
  1 ≤ 1 ≤ Z.of_nat (length (grid (new_Puzzle 2))) ∧
  ∃ p', setValue 0 0 1 (new_Puzzle 2) = Returns () p' ∧
    (∀ row' col', row' ≠ 0%nat →
       cell_at (grid p') row' col' = cell_at (grid (new_Puzzle 2)) row' col') ∧
    (∀ col' cell, col' ≠ 0%nat → cell_at (grid (new_Puzzle 2)) 0 col' = Some cell →
       ∃ cell', cell_at (grid p') 0 col' = Some cell' ∧
         cell' ⊆ cell ∧ cell ∖ {[1]} ⊆ cell').
Proof.
  assert (in_range (grid (new_Puzzle 2)) 0 0) as Hin
    by (apply in_range_new_Puzzle; lia).
  assert (1 ≤ 1 ≤ Z.of_nat (length (grid (new_Puzzle 2)))) as Hv
    by (rewrite length_new_Puzzle; lia).
  split; [exact Hin|]. split; [exact Hv|].
  exact (setValue_frame_other_rows (new_Puzzle 2) 0 0 1 Hin Hv).
Defined.

(** ** Assignment: when it fails *)

(** C4, as stated, fails: on a fresh 2-by-2 grid the call
    [setValue(2, 0, 1)] names a row that does not exist and a valid value;
    it passes the only check there is and reaches the unchecked subscript
    [grid[2]], so no error is raised to the caller. *)
Lemma setValue_row_unchecked :
  ¬ (2 < length (grid (new_Puzzle 2)))%nat ∧
  1 ≤ 1 ≤ Z.of_nat (length (grid (new_Puzzle 2))) ∧
  setValue 2 0 1 (new_Puzzle 2) = Undefined ∧
  ¬ ∃ e p', setValue 2 0 1 (new_Puzzle 2) = Throws e p'.
Proof.
  rewrite length_new_Puzzle.
  split; [lia|]. split; [lia|].
  assert (setValue 2 0 1 (new_Puzzle 2) = Undefined) as Hub
    by (vm_compute; reflexivity).
  split; [exact Hub|]. intros (e & p' & Hthrow). congruence.
Qed.

(** C4, amended: [setValue] throws exactly when value is not in 1..N,
    whatever row and col are, and it throws before any write: the exception
    is [invalid_argument] and the object is the one the call started from.
    With row and col in range and value in 1..N it returns. *)
Theorem setValue_throws_iff (p : Puzzle) (row col : nat) (v : Z) :
  (∀ e p', setValue row col v p = Throws e p' ↔
     ¬ (1 ≤ v ≤ Z.of_nat (length (grid p))) ∧
     e = invalid_argument ("Bad value " +:+ pretty v) ∧
     p' = p) ∧
  (in_range (grid p) row col → 1 ≤ v ≤ Z.of_nat (length (grid p)) →
     ∃ p', setValue row col v p = Returns () p').
Proof.
  split; [intros e p'; split|].
  - apply setValue_Throws_inv.
  - intros (Hv & -> & ->). by apply setValue_throws.
  - intros Hin Hv.
    destruct (setValue_cells p row col v Hin Hv) as (p' & Hret & _). eauto.
Qed.

Lemma setValue_throws_iff_witness :
  setValue 1 1 10 (new_Puzzle 9) =
    Throws (invalid_argument "Bad value 10") (new_Puzzle 9) ∧
  (∃ p', setValue 1 1 5 (new_Puzzle 9) = Returns () p').
Proof.
  split.
  - apply (proj1 (setValue_throws_iff (new_Puzzle 9) 1 1 10)).
    split; [rewrite length_new_Puzzle; lia|]. split; reflexivity.
  - apply (proj2 (setValue_throws_iff (new_Puzzle 9) 1 1 5)).
    + apply in_range_new_Puzzle; lia.
    + rewrite length_new_Puzzle. lia.
Defined.

(** C10: a call of [setValue] that throws leaves the object exactly as it
    was: the exception is the invalid-value error, raised for value <= 0 or
    value > N by the check that precedes every write. *)
Theorem setValue_atomic_on_error (p : Puzzle) (row col : nat) (v : Z)
    (e : exception) (p' : Puzzle) :
  setValue row col v p = Throws e p' →
  p' = p ∧
  e = invalid_argument ("Bad value " +:+ pretty v) ∧
  (v ≤ 0 ∨ Z.of_nat (length (grid p)) < v).
Proof.
  intros Hthrow. apply setValue_Throws_inv in Hthrow as (Hv & -> & ->).
  split; [done|]. split; [done|]. lia.
Qed.

Lemma setValue_atomic_on_error_witness :
  setValue 1 1 0 (new_Puzzle 9) = Throws (invalid_argument "Bad value 0") (new_Puzzle 9) ∧
  new_Puzzle 9 = new_Puzzle 9 ∧
  invalid_argument "Bad value 0" = invalid_argument ("Bad value " +:+ pretty 0) ∧
  (0 ≤ 0 ∨ Z.of_nat (length (grid (new_Puzzle 9))) < 0).
Proof.
  assert (setValue 1 1 0 (new_Puzzle 9) =
          Throws (invalid_argument "Bad value 0") (new_Puzzle 9)) as Hthrow
    by (vm_compute; reflexivity).
  split; [exact Hthrow|].
  exact (setValue_atomic_on_error (new_Puzzle 9) 1 1 0 _ _ Hthrow).
Defined.

(** ** Assignment: the cell assigned *)

(** C5: with row and col in range and v in 1..N, [setValue(row, col, v)]
    leaves the target cell with exactly the candidate set {v}, whatever it
    held before, and the same call made again returns with the whole grid
    unchanged. *)
Theorem setValue_fixes_cell_idempotent (p : Puzzle) (row col : nat) (v : Z) :
  in_range (grid p) row col →
  1 ≤ v ≤ Z.of_nat (length (grid p)) →
  ∃ p', setValue row col v p = Returns () p' ∧
    cell_at (grid p') row col = Some {[v]} ∧
    setValue row col v p' = Returns () p'.
Proof.
  intros (r & Hr & Hcol)%in_range_inv Hv.
  assert (row < length (grid p))%nat as Hrow by (by eapply lookup_lt_Some).
  eexists. split; [by eapply setValue_returns|]. split.
  - simpl. rewrite cell_at_insert, decide_True by done.
    rewrite list_lookup_fmap, list_lookup_insert_eq by done.
    simpl. by rewrite erase_step_singleton.
  - rewrite (setValue_returns _ row col v (erase_step v <$> <[col := {[v]}]> r));
      simpl.
    + rewrite list_insert_insert_eq.
      rewrite (list_fmap_insert _ r), erase_step_singleton, list_insert_insert_eq.
      rewrite list_fmap_insert, erase_step_singleton, <- list_fmap_compose.
      do 4 f_equal. apply list_fmap_ext.
      intros i cell _. simpl. apply erase_step_idem.
    + by apply list_lookup_insert_eq.
    + by rewrite length_fmap, length_insert.
    + by rewrite length_insert.
Qed.

Lemma setValue_fixes_cell_idempotent_witness :
  in_range (grid (new_Puzzle 9)) 1 1 ∧
  1 ≤ 5 ≤ Z.of_nat (length (grid (new_Puzzle 9))) ∧
  ∃ p', setValue 1 1 5 (new_Puzzle 9) = Returns () p' ∧
    cell_at (grid p') 1 1 = Some {[5]} ∧
    setValue 1 1 5 p' = Returns () p'.
Proof.
  assert (in_range (grid (new_Puzzle 9)) 1 1) as Hin
    by (apply in_range_new_Puzzle; lia).
  assert (1 ≤ 5 ≤ Z.of_nat (length (grid (new_Puzzle 9)))) as Hv
    by (rewrite length_new_Puzzle; lia).
  split; [exact Hin|]. split; [exact Hv|].
  exact (setValue_fixes_cell_idempotent (new_Puzzle 9) 1 1 5 Hin Hv).
Defined.

(** ** Assignment: the size of the candidate sets *)

(** C6, as stated, fails: in the 1-by-1 grid whose only cell has no
    candidate left, [setValue(0, 0, 1)] is in range and returns, and the
    cell goes from 0 candidates to 1. *)
Lemma setValue_grows_empty_cell :
  in_range (grid (mkPuzzle [[∅]])) 0 0 ∧
  1 ≤ 1 ≤ Z.of_nat (length (grid (mkPuzzle [[∅]]))) ∧
  setValue 0 0 1 (mkPuzzle [[∅]]) = Returns () (mkPuzzle [[{[1]}]]) ∧
  cell_at (grid (mkPuzzle [[∅]])) 0 0 = Some ∅ ∧
  cell_at (grid (mkPuzzle [[{[1]}]])) 0 0 = Some {[1]} ∧
  ¬ (size ({[1%Z]} : Options) ≤ size (∅ : Options))%nat.
Proof.
  split; [by eexists|]. split; [simpl; lia|].
  split; [vm_compute; reflexivity|].
  split; [reflexivity|]. split; [reflexivity|].
  rewrite size_singleton, size_empty. lia.
Qed.

(** C6, amended: for every grid state in which the target cell has at least
    one candidate, and every in-range assignment of a value in 1..N,
    [setValue] returns and no cell of the grid has more candidates after the
    call than before it. *)
Theorem setValue_monotone_shrink (p : Puzzle) (row col : nat) (v : Z)
    (target : Options) :
  cell_at (grid p) row col = Some target →
  target ≠ ∅ →
  1 ≤ v ≤ Z.of_nat (length (grid p)) →
  ∃ p', setValue row col v p = Returns () p' ∧
    ∀ row' col' cell, cell_at (grid p) row' col' = Some cell →
      ∃ cell', cell_at (grid p') row' col' = Some cell' ∧
        (size cell' ≤ size cell)%nat.
Proof.
  intros Htarget Hne Hv.
  assert (in_range (grid p) row col) as Hin by (by eexists).
  destruct (setValue_cells p row col v Hin Hv)
    as (p' & Hret & _ & Hnew & Hrow & Hrest).
  exists p'. split; [done|]. intros row' col' cell Hcell.
  destruct (decide (row' = row)) as [->|Hrow'].
  - destruct (decide (col' = col)) as [->|Hcol'].
    + exists {[v]}. split; [done|]. rewrite size_singleton.
      assert (cell = target) as -> by congruence.
      assert (size target ≠ 0%nat); [|lia].
      intros Hsize. apply Hne, leibniz_equiv. by apply size_empty_inv.
    + exists (erase_step v cell). rewrite Hrow, Hcell by done.
      split; [done|]. apply erase_step_size.
  - exists cell. split; [|done]. unfold cell_at in *. by rewrite Hrest.
Qed.

Lemma setValue_monotone_shrink_witness :
  cell_at (grid (new_Puzzle 2)) 0 0 = Some {[1; 2]} ∧
  ({[1; 2]} : Options) ≠ ∅ ∧
  1 ≤ 1 ≤ Z.of_nat (length (grid (new_Puzzle 2))) ∧
  ∃ p', setValue 0 0 1 (new_Puzzle 2) = Returns () p' ∧
    ∀ row' col' cell, cell_at (grid (new_Puzzle 2)) row' col' = Some cell →
      ∃ cell', cell_at (grid p') row' col' = Some cell' ∧
        (size cell' ≤ size cell)%nat.
Proof.
  assert (cell_at (grid (new_Puzzle 2)) 0 0 = Some {[1; 2]}) as Htarget
    by (vm_compute; reflexivity).
  assert (({[1; 2]} : Options) ≠ ∅) as Hne by (vm_compute; discriminate).
  assert (1 ≤ 1 ≤ Z.of_nat (length (grid (new_Puzzle 2)))) as Hv
    by (rewrite length_new_Puzzle; lia).
  split; [exact Htarget|]. split; [exact Hne|]. split; [exact Hv|].
  exact (setValue_monotone_shrink (new_Puzzle 2) 0 0 1 _ Htarget Hne Hv).
Defined.

(** ** Assignment: no contradiction is reported *)

(** C7, as stated, fails: on a fresh 2-by-2 grid, [setValue(0, 0, 1)]
    followed by [setValue(0, 1, 1)] assigns 1 to a row that already holds a
    cell fixed to 1; the second call returns like the first and the grid
    keeps both cells of row 0 fixed to 1. *)
Lemma setValue_accepts_duplicate :
  setValues [(0%nat, 0%nat, 1); (0%nat, 1%nat, 1)] (new_Puzzle 2) =
  Returns () (mkPuzzle [[{[1]}; {[1]}]; [{[1; 2]}; {[1; 2]}]]).
Proof. vm_compute. reflexivity. Qed.

(** C7, amended: [setValue] detects no contradiction.  Assigning v, in
    range, to a row that already holds another cell fixed to v returns
    normally and leaves both cells fixed to v; and its elimination empties
    no cell: a cell that is empty after the call was empty before it. *)
Theorem setValue_reports_no_contradiction (p : Puzzle) (row col col' : nat)
    (v : Z) :
  in_range (grid p) row col →
  1 ≤ v ≤ Z.of_nat (length (grid p)) →
  col' ≠ col →
  cell_at (grid p) row col' = Some {[v]} →
  ∃ p', setValue row col v p = Returns () p' ∧
    cell_at (grid p') row col = Some {[v]} ∧
    cell_at (grid p') row col' = Some {[v]} ∧
    ∀ i j, cell_at (grid p') i j = Some ∅ → cell_at (grid p) i j = Some ∅.
Proof.
  intros Hin Hv Hne Hfixed.
  destruct (setValue_cells p row col v Hin Hv)
    as (p' & Hret & _ & Hnew & Hrow & Hrest).
  exists p'. split; [done|]. split; [done|]. split.
  - rewrite Hrow, Hfixed by done. simpl. by rewrite erase_step_singleton.
  - intros i j. by apply setValue_no_new_empty with row col v.
Qed.

Lemma setValue_reports_no_contradiction_witness :
  in_range (grid (mkPuzzle [[{[1]}; {[1; 2]}]; [{[1; 2]}; {[1; 2]}]])) 0 1 ∧
  ∃ p', setValue 0 1 1 (mkPuzzle [[{[1]}; {[1; 2]}]; [{[1; 2]}; {[1; 2]}]]) =
          Returns () p' ∧
    cell_at (grid p') 0 1 = Some {[1]} ∧
    cell_at (grid p') 0 0 = Some {[1]} ∧
    ∀ i j, cell_at (grid p') i j = Some ∅ →
      cell_at (grid (mkPuzzle [[{[1]}; {[1; 2]}]; [{[1; 2]}; {[1; 2]}]])) i j = Some ∅.
Proof.
  assert (in_range (grid (mkPuzzle [[{[1]}; {[1; 2]}]; [{[1; 2]}; {[1; 2]}]])) 0 1)
    as Hin by (by eexists).
  split; [exact Hin|].
  apply (setValue_reports_no_contradiction
           (mkPuzzle [[{[1]}; {[1; 2]}]; [{[1; 2]}; {[1; 2]}]]) 0 1 0 1 Hin).
  - simpl. lia.
  - lia.
  - reflexivity.
Defined.

(** ** The unit getters *)

(** C8, as stated, fails: on a fresh 1-by-1 grid, [getRow(0)],
    [getColumn(0)] and [getBox(0)] return a sequence of no element, not of
    one. *)
Lemma getters_empty_on_1x1 :
  length (grid (new_Puzzle 1)) = 1%nat ∧
  ∃ cells, getRow 0 (new_Puzzle 1) = Returns cells (new_Puzzle 1) ∧
    getColumn 0 (new_Puzzle 1) = Returns cells (new_Puzzle 1) ∧
    getBox 0 (new_Puzzle 1) = Returns cells (new_Puzzle 1) ∧
    length cells = 0%nat.
Proof. split; [apply length_new_Puzzle|]. by exists []. Qed.

(** C8, amended: for every index n and every grid, each of [getRow(n)],
    [getColumn(n)] and [getBox(n)] returns the empty sequence and leaves the
    grid as it is. *)
Theorem getters_return_empty (n : nat) (p : Puzzle) :
  getRow n p = Returns [] p ∧
  getColumn n p = Returns [] p ∧
  getBox n p = Returns [] p.
Proof. done. Qed.

(** ** No cell runs out of candidates *)

(** Every cell of the grid has a candidate. *)
Lemma new_Puzzle_nonempty (N row col : nat) (cell : Options) :
  (1 ≤ N)%nat →
  cell_at (grid (new_Puzzle N)) row col = Some cell → cell ≠ ∅.
Proof.
  intros HN. rewrite new_Puzzle_replicate. unfold cell_at.
  destruct (replicate N (replicate N (defaultData N)) !! row) as [r|] eqn:Hr;
    [|done].
  apply lookup_replicate_1 in Hr as [-> _]. simpl.
  intros [-> _]%lookup_replicate_1. by apply defaultData_nonempty.
Qed.

Lemma setValue_preserves_nonempty (p p' : Puzzle) (row col : nat) (v : Z) :
  (∀ i j cell, cell_at (grid p) i j = Some cell → cell ≠ ∅) →
  setValue row col v p = Returns () p' →
  ∀ i j cell, cell_at (grid p') i j = Some cell → cell ≠ ∅.
Proof.
  intros Hinv Hret i j cell Hcell ->.
  apply (setValue_no_new_empty _ _ _ _ _ _ _ Hret) in Hcell.
  by apply (Hinv i j ∅).
Qed.

Lemma setValues_preserves_nonempty (calls : list (nat * nat * Z)) (p p' : Puzzle) :
  (∀ i j cell, cell_at (grid p) i j = Some cell → cell ≠ ∅) →
  setValues calls p = Returns () p' →
  ∀ i j cell, cell_at (grid p') i j = Some cell → cell ≠ ∅.
Proof.
  revert p. induction calls as [|[[row col] v] calls IH]; intros p Hinv Hrun.
  - inversion Hrun. by subst.
  - simpl in Hrun. unfold mbind, method_bind in Hrun.
    destruct (setValue row col v p) as [[] p1| |] eqn:Hcall; [|done..].
    apply (IH p1); [|done]. by eapply setValue_preserves_nonempty.
Qed.

(** C9: starting from a freshly constructed [Puzzle(N)] with N >= 1, after
    any sequence of [setValue] calls that all return, every cell of the grid
    still has a non-empty candidate set. *)
Theorem setValues_never_empty (N : nat) (calls : list (nat * nat * Z))
    (p : Puzzle) :
  (1 ≤ N)%nat →
  setValues calls (new_Puzzle N) = Returns () p →
  ∀ row col cell, cell_at (grid p) row col = Some cell → cell ≠ ∅.
Proof.
  intros HN Hrun. eapply setValues_preserves_nonempty; [|done].
  intros i j cell. by apply new_Puzzle_nonempty.
Qed.

Lemma setValues_never_empty_witness :
  (1 ≤ 2)%nat ∧
  setValues [(0%nat, 0%nat, 1); (0%nat, 1%nat, 1); (1%nat, 0%nat, 2)] (new_Puzzle 2) =
    Returns () (mkPuzzle [[{[1]}; {[1]}]; [{[2]}; {[1]}]]) ∧
  ∀ row col cell,
    cell_at (grid (mkPuzzle [[{[1]}; {[1]}]; [{[2]}; {[1]}]])) row col = Some cell →
    cell ≠ ∅.
Proof.
  assert (setValues [(0%nat, 0%nat, 1); (0%nat, 1%nat, 1); (1%nat, 0%nat, 2)]
            (new_Puzzle 2) =
          Returns () (mkPuzzle [[{[1]}; {[1]}]; [{[2]}; {[1]}]])) as Hrun
    by (vm_compute; reflexivity).
  split; [lia|]. split; [exact Hrun|].
  exact (setValues_never_empty 2 _ _ ltac:(lia) Hrun).
Defined.

(** ** The shape of the grid *)

Section shape.

Implicit Types (p : Puzzle) (calls : list (nat * nat * Z)).

(** The grid a returning call leaves, read back from the outcome. *)
Lemma setValue_Returns_grid p row col v p' :
  setValue row col v p = Returns () p' →
  ∃ r, grid p !! row = Some r ∧ (col < length r)%nat ∧
    1 ≤ v ≤ Z.of_nat (length (grid p)) ∧
    grid p' = <[row := erase_step v <$> <[col := {[v]}]> r]> (grid p).
Proof.
  intros Hret.
  destruct (setValue_Returns_inv _ _ _ _ _ Hret) as [Hin Hv].
  apply in_range_inv in Hin as (r & Hr & Hcol).
  exists r. repeat split; try done; try lia.
  rewrite (setValue_returns p row col v r Hr Hcol Hv) in Hret.
  by inversion Hret.
Qed.

Lemma setValues_cons_inv calls p row col v p' :
  setValues ((row, col, v) :: calls) p = Returns () p' →
  ∃ p1, setValue row col v p = Returns () p1 ∧ setValues calls p1 = Returns () p'.
Proof.
  simpl. unfold mbind, method_bind.
  destruct (setValue row col v p) as [[] p1| |]; [|done..]. eauto.
Qed.

Lemma setValues_cons calls p row col v p1 :
  setValue row col v p = Returns () p1 →
  setValues ((row, col, v) :: calls) p = setValues calls p1.
Proof. intros Hret. simpl. unfold mbind, method_bind. by rewrite Hret. Qed.

Lemma setValue_row_lengths p row col v p' :
  setValue row col v p = Returns () p' →
  length <$> grid p' = length <$> grid p.
Proof.
  intros (r & Hr & Hcol & _ & ->)%setValue_Returns_grid.
  rewrite list_fmap_insert, length_fmap, length_insert.
  apply list_insert_id. by rewrite list_lookup_fmap, Hr.
Qed.

Lemma setValues_row_lengths calls p p' :
  setValues calls p = Returns () p' →
  length <$> grid p' = length <$> grid p.
Proof.
  revert p. induction calls as [|[[row col] v] calls IH]; intros p Hrun.
  - inversion Hrun. by subst.
  - apply setValues_cons_inv in Hrun as (p1 & Hcall & Hrun).
    rewrite (IH _ Hrun). by eapply setValue_row_lengths.
Qed.

Lemma row_lengths_square (g g' : Grid) :
  length <$> g' = length <$> g → square g → square g'.
Proof.
  intros Hlen Hsq. unfold square in *.
  assert (length g' = length g) as Hrows
    by (by rewrite <- (length_fmap length g'), Hlen, length_fmap).
  rewrite Hrows. apply Forall_lookup. intros i r' Hr'.
  assert ((length <$> g) !! i = Some (length r')) as Hi
    by (by rewrite <- Hlen, list_lookup_fmap, Hr').
  rewrite list_lookup_fmap in Hi.
  destruct (g !! i) as [r|] eqn:Hr; [|done]. simpl in Hi.
  injection Hi as <-. by apply (proj1 (Forall_lookup _ _) Hsq i r).
Qed.

Lemma square_new_Puzzle (N : nat) : square (grid (new_Puzzle N)).
Proof.
  unfold square. rewrite new_Puzzle_replicate, length_replicate.
  apply Forall_replicate, length_replicate.
Qed.

(** X1: no sequence of returning [setValue] calls changes the dimensions of
    the grid, from whatever state it starts: the number of rows and the
    length of every row are what they were, so an N-by-N grid stays N-by-N. *)
Theorem setValues_keep_dimensions calls p p' :
  setValues calls p = Returns () p' →
  length (grid p') = length (grid p) ∧
  (∀ row, length <$> grid p' !! row = length <$> grid p !! row) ∧
  (square (grid p) → square (grid p')).
Proof.
  intros Hlen%setValues_row_lengths. split; [|split].
  - by rewrite <- (length_fmap length (grid p')), Hlen, length_fmap.
  - intros row. by rewrite <- !list_lookup_fmap, Hlen.
  - by apply row_lengths_square.
Qed.

Lemma setValues_keep_dimensions_witness :
  setValues [(0%nat, 0%nat, 1); (1%nat, 0%nat, 2)] (new_Puzzle 2) =
    Returns () (mkPuzzle [[{[1]}; {[2]}]; [{[2]}; {[1]}]]) ∧
  length (grid (mkPuzzle [[{[1]}; {[2]}]; [{[2]}; {[1]}]])) =
    length (grid (new_Puzzle 2)) ∧
  (∀ row, length <$> grid (mkPuzzle [[{[1]}; {[2]}]; [{[2]}; {[1]}]]) !! row =
          length <$> grid (new_Puzzle 2) !! row) ∧
  (square (grid (new_Puzzle 2)) →
   square (grid (mkPuzzle [[{[1]}; {[2]}]; [{[2]}; {[1]}]]))).
Proof.
  assert (setValues [(0%nat, 0%nat, 1); (1%nat, 0%nat, 2)] (new_Puzzle 2) =
          Returns () (mkPuzzle [[{[1]}; {[2]}]; [{[2]}; {[1]}]])) as Hrun
    by (vm_compute; reflexivity).
  split; [exact Hrun|].
  exact (setValues_keep_dimensions _ _ _ Hrun).
Defined.

End shape.

(** ** Which calls return *)

Section outcomes.

Implicit Types (p : Puzzle) (calls : list (nat * nat * Z)).

Lemma setValue_returns_iff p row col v :
  (∃ p', setValue row col v p = Returns () p') ↔
  in_range (grid p) row col ∧ 1 ≤ v ≤ Z.of_nat (length (grid p)).
Proof.
  split.
  - intros [p' Hret]. by eapply setValue_Returns_inv.
  - intros [Hin Hv].
    destruct (setValue_cells p row col v Hin Hv) as (p' & Hret & _). eauto.
Qed.

(** X2: the three outcomes of [setValue] are told apart by its arguments
    alone.  It returns exactly when the value is in 1..N and the subscripts
    name a cell; it is undefined exactly when the value is in 1..N and the
    subscripts name no cell (the value is checked first, so a bad value
    with bad subscripts throws). *)
Theorem setValue_outcome p row col v :
  ((∃ p', setValue row col v p = Returns () p') ↔
     in_range (grid p) row col ∧ 1 ≤ v ≤ Z.of_nat (length (grid p))) ∧
  (setValue row col v p = Undefined ↔
     ¬ in_range (grid p) row col ∧ 1 ≤ v ≤ Z.of_nat (length (grid p))).
Proof.
  split; [apply setValue_returns_iff|]. split.
  - intros Hub.
    destruct (decide (1 ≤ v ≤ Z.of_nat (length (grid p)))) as [Hv|Hv].
    + split; [|done]. intros Hin.
      destruct (setValue_cells p row col v Hin Hv) as (p' & Hret & _). congruence.
    + rewrite setValue_throws in Hub by done. discriminate.
  - intros [Hout Hv]. by apply setValue_undefined.
Qed.

(** X3: on a grid with no row, as [Puzzle(0)] builds it, every call of
    [setValue] throws, whatever its arguments: no value is in 1..0. *)
Theorem setValue_on_empty_grid (row col : nat) (v : Z) :
  setValue row col v (new_Puzzle 0) =
  Throws (invalid_argument ("Bad value " +:+ pretty v)) (new_Puzzle 0).
Proof. apply setValue_throws. rewrite length_new_Puzzle. lia. Qed.

Lemma setValue_square_returns p N row col v :
  square (grid p) → length (grid p) = N →
  (∃ p', setValue row col v p = Returns () p') ↔ valid_call N (row, col, v).
Proof.
  intros Hsq HN. unfold valid_call. simpl.
  rewrite setValue_returns_iff, in_range_square, HN by done.
  tauto.
Qed.

Lemma setValue_keeps_square p row col v p' :
  setValue row col v p = Returns () p' →
  square (grid p) →
  square (grid p') ∧ length (grid p') = length (grid p).
Proof.
  intros Hlen%setValue_row_lengths Hsq. split.
  - by eapply row_lengths_square.
  - by rewrite <- (length_fmap length (grid p')), Hlen, length_fmap.
Qed.

Lemma setValues_square_returns calls p N :
  square (grid p) → length (grid p) = N →
  (∃ p', setValues calls p = Returns () p') ↔ Forall (valid_call N) calls.
Proof.
  revert p. induction calls as [|[[row col] v] calls IH]; intros p Hsq HN.
  - split; [constructor|]. intros _. by exists p.
  - rewrite Forall_cons, <- (setValue_square_returns p N row col v Hsq HN).
    split.
    + intros [p' (p1 & Hcall & Hrun)%setValues_cons_inv].
      split; [eauto|].
      destruct (setValue_keeps_square _ _ _ _ _ Hcall Hsq) as [Hsq1 Hlen].
      apply (IH p1); [done | lia | eauto].
    + intros [[p1 Hcall] Hcalls].
      rewrite (setValues_cons calls p row col v p1 Hcall).
      destruct (setValue_keeps_square _ _ _ _ _ Hcall Hsq) as [Hsq1 Hlen].
      apply (IH p1); [done | lia | done].
Qed.

(** X4: on a freshly constructed [Puzzle(N)], a sequence of [setValue]
    calls returns (none of them throws or is undefined) exactly when every
    call has row < N, col < N and 1 <= value <= N. *)
Theorem setValues_new_Puzzle_returns (N : nat) calls :
  (∃ p, setValues calls (new_Puzzle N) = Returns () p) ↔
  Forall (valid_call N) calls.
Proof.
  apply setValues_square_returns.
  - apply square_new_Puzzle.
  - apply length_new_Puzzle.
Qed.

Lemma setValue_keeps_range p row col v p' (N : nat) :
  length (grid p) = N →
  (∀ i j cell x, cell_at (grid p) i j = Some cell → x ∈ cell → 1 ≤ x ≤ Z.of_nat N) →
  setValue row col v p = Returns () p' →
  ∀ i j cell x, cell_at (grid p') i j = Some cell → x ∈ cell → 1 ≤ x ≤ Z.of_nat N.
Proof.
  intros HN Hinv Hret i j cell x Hcell Hx.
  destruct (setValue_Returns_inv _ _ _ _ _ Hret) as [Hin Hv].
  destruct (setValue_cells p row col v Hin Hv)
    as (p'' & Hret' & _ & Hnew & Hrow & Hrest).
  assert (p'' = p') as -> by congruence.
  destruct (decide (i = row)) as [->|Hi].
  - destruct (decide (j = col)) as [->|Hj].
    + assert (cell = {[v]}) as -> by congruence.
      apply elem_of_singleton in Hx as ->. lia.
    + rewrite Hrow in Hcell by done.
      destruct (cell_at (grid p) row j) as [old|] eqn:Hold; [|done].
      simpl in Hcell. assert (cell = erase_step v old) as -> by congruence.
      apply (Hinv row j old x Hold). by apply (erase_step_subseteq v old).
  - apply (Hinv i j cell x); [|done].
    unfold cell_at in *. by rewrite <- Hrest.
Qed.

(** X5: starting from a freshly constructed [Puzzle(N)], after any
    sequence of [setValue] calls that all return, every candidate of every
    cell is a value in 1..N. *)
Theorem setValues_candidates_in_range (N : nat) calls p :
  setValues calls (new_Puzzle N) = Returns () p →
  ∀ row col cell x,
    cell_at (grid p) row col = Some cell → x ∈ cell → 1 ≤ x ≤ Z.of_nat N.
Proof.
  assert (∀ calls q p,
    length (grid q) = N →
    (∀ i j cell x, cell_at (grid q) i j = Some cell → x ∈ cell → 1 ≤ x ≤ Z.of_nat N) →
    setValues calls q = Returns () p →
    ∀ i j cell x, cell_at (grid p) i j = Some cell → x ∈ cell → 1 ≤ x ≤ Z.of_nat N)
    as Hgen.
  { clear. intros calls.
    induction calls as [|[[row col] v] calls IH]; intros q p HN Hinv Hrun.
    - inversion Hrun. by subst.
    - apply setValues_cons_inv in Hrun as (p1 & Hcall & Hrun).
      apply (IH p1 p); [|by eapply setValue_keeps_range|done].
      apply setValue_row_lengths in Hcall.
      by rewrite <- (length_fmap length (grid p1)), Hcall, length_fmap. }
  intros Hrun. apply (Hgen calls (new_Puzzle N) p); [apply length_new_Puzzle| |done].
  intros i j cell x. rewrite new_Puzzle_replicate. unfold cell_at.
  destruct (replicate N (replicate N (defaultData N)) !! i) as [r|] eqn:Hr; [|done].
  apply lookup_replicate_1 in Hr as [-> _]. simpl.
  intros [-> _]%lookup_replicate_1. apply elem_of_defaultData.
Qed.

Lemma setValues_candidates_in_range_witness :
  setValues [(0%nat, 0%nat, 1); (1%nat, 0%nat, 2)] (new_Puzzle 2) =
    Returns () (mkPuzzle [[{[1]}; {[2]}]; [{[2]}; {[1]}]]) ∧
  ∀ row col cell x,
    cell_at (grid (mkPuzzle [[{[1]}; {[2]}]; [{[2]}; {[1]}]])) row col = Some cell →
    x ∈ cell → 1 ≤ x ≤ Z.of_nat 2.
Proof.
  assert (setValues [(0%nat, 0%nat, 1); (1%nat, 0%nat, 2)] (new_Puzzle 2) =
          Returns () (mkPuzzle [[{[1]}; {[2]}]; [{[2]}; {[1]}]])) as Hrun
    by (vm_compute; reflexivity).
  split; [exact Hrun|].
  exact (setValues_candidates_in_range 2 _ _ Hrun).
Defined.

End outcomes.

(** ** Cells that are already fixed *)

Section fixed_cells.

Implicit Types (p : Puzzle) (calls : list (nat * nat * Z)).

Lemma erase_step_fixed v w : erase_step v {[w]} = {[w]}.
Proof.
  destruct (decide (w = v)) as [->|Hne]; [apply erase_step_singleton|].
  rewrite erase_step_decide. case_decide; set_solver.
Qed.

Lemma setValue_keeps_fixed p row col v p' i j w :
  setValue row col v p = Returns () p' →
  (row, col) ≠ (i, j) →
  cell_at (grid p) i j = Some {[w]} →
  cell_at (grid p') i j = Some {[w]}.
Proof.
  intros Hret Hne Hcell.
  destruct (setValue_Returns_inv _ _ _ _ _ Hret) as [Hin Hv].
  destruct (setValue_cells p row col v Hin Hv)
    as (p'' & Hret' & _ & _ & Hrow & Hrest).
  assert (p'' = p') as -> by congruence.
  destruct (decide (i = row)) as [->|Hi].
  - rewrite Hrow, Hcell by congruence. simpl. by rewrite erase_step_fixed.
  - unfold cell_at in *. by rewrite Hrest.
Qed.

(** X6: a cell that holds exactly one candidate w keeps exactly {w} through
    any sequence of returning [setValue] calls none of which is addressed to
    that cell: assignments elsewhere, in its row or not and of w or not,
    never touch a fixed cell. *)
Theorem setValues_keep_fixed calls p p' i j w :
  Forall (λ call, (call.1.1, call.1.2) ≠ (i, j)) calls →
  cell_at (grid p) i j = Some {[w]} →
  setValues calls p = Returns () p' →
  cell_at (grid p') i j = Some {[w]}.
Proof.
  revert p. induction calls as [|[[row col] v] calls IH]; intros p Hcalls Hcell Hrun.
  - inversion Hrun. by subst.
  - apply Forall_cons in Hcalls as [Hcall Hcalls]. simpl in Hcall.
    apply setValues_cons_inv in Hrun as (p1 & Hret & Hrun).
    apply (IH p1); [done| |done]. by eapply setValue_keeps_fixed.
Qed.

Lemma setValues_keep_fixed_witness :
  Forall (λ call : nat * nat * Z, (call.1.1, call.1.2) ≠ (0%nat, 0%nat))
    [(0%nat, 1%nat, 1); (1%nat, 0%nat, 1)] ∧
  cell_at (grid (mkPuzzle [[{[1]}; {[1; 2]}]; [{[1; 2]}; {[1; 2]}]])) 0 0 = Some {[1]} ∧
  setValues [(0%nat, 1%nat, 1); (1%nat, 0%nat, 1)]
    (mkPuzzle [[{[1]}; {[1; 2]}]; [{[1; 2]}; {[1; 2]}]]) =
    Returns () (mkPuzzle [[{[1]}; {[1]}]; [{[1]}; {[2]}]]) ∧
  cell_at (grid (mkPuzzle [[{[1]}; {[1]}]; [{[1]}; {[2]}]])) 0 0 = Some {[1]}.
Proof.
  assert (Forall (λ call : nat * nat * Z, (call.1.1, call.1.2) ≠ (0%nat, 0%nat))
            [(0%nat, 1%nat, 1); (1%nat, 0%nat, 1)]) as Hcalls
    by (repeat constructor; simpl; congruence).
  assert (setValues [(0%nat, 1%nat, 1); (1%nat, 0%nat, 1)]
            (mkPuzzle [[{[1]}; {[1; 2]}]; [{[1; 2]}; {[1; 2]}]]) =
          Returns () (mkPuzzle [[{[1]}; {[1]}]; [{[1]}; {[2]}]])) as Hrun
    by (vm_compute; reflexivity).
  assert (cell_at (grid (mkPuzzle [[{[1]}; {[1; 2]}]; [{[1; 2]}; {[1; 2]}]])) 0 0 =
          Some {[1]}) as Hcell by reflexivity.
  split; [exact Hcalls|]. split; [exact Hcell|]. split; [exact Hrun|].
  exact (setValues_keep_fixed _ _ _ 0%nat 0%nat 1 Hcalls Hcell Hrun).
Defined.

(** X7: after a returning [setValue(row, col, v)] on a row in which no
    other cell was exactly {v}, the cell (row, col) holds exactly {v} and is
    the only cell of that row that still has v among its candidates. *)
Theorem setValue_unique_in_row p row col v :
  in_range (grid p) row col →
  1 ≤ v ≤ Z.of_nat (length (grid p)) →
  (∀ col', col' ≠ col → cell_at (grid p) row col' ≠ Some {[v]}) →
  ∃ p', setValue row col v p = Returns () p' ∧
    cell_at (grid p') row col = Some {[v]} ∧
    ∀ col' cell, cell_at (grid p') row col' = Some cell → v ∈ cell → col' = col.
Proof.
  intros Hin Hv Hfree.
  destruct (setValue_cells p row col v Hin Hv)
    as (p' & Hret & _ & Hnew & Hrow & _).
  exists p'. split; [done|]. split; [done|]. intros col' cell Hcell Hmem.
  destruct (decide (col' = col)) as [|Hne]; [done|]. exfalso.
  rewrite Hrow in Hcell by done.
  destruct (cell_at (grid p) row col') as [old|] eqn:Hold; [|done].
  simpl in Hcell. assert (cell = erase_step v old) as -> by congruence.
  rewrite erase_step_decide in Hmem. case_decide as Hfixed.
  - apply (Hfree col' Hne). by rewrite Hold, Hfixed.
  - set_solver.
Qed.

Lemma setValue_unique_in_row_witness :
  in_range (grid (new_Puzzle 2)) 0 0 ∧
  1 ≤ 1 ≤ Z.of_nat (length (grid (new_Puzzle 2))) ∧
  (∀ col', col' ≠ 0%nat → cell_at (grid (new_Puzzle 2)) 0 col' ≠ Some {[1]}) ∧
  ∃ p', setValue 0 0 1 (new_Puzzle 2) = Returns () p' ∧
    cell_at (grid p') 0 0 = Some {[1]} ∧
    ∀ col' cell, cell_at (grid p') 0 col' = Some cell → 1 ∈ cell → col' = 0%nat.
Proof.
  assert (in_range (grid (new_Puzzle 2)) 0 0) as Hin
    by (apply in_range_new_Puzzle; lia).
  assert (1 ≤ 1 ≤ Z.of_nat (length (grid (new_Puzzle 2)))) as Hv
    by (rewrite length_new_Puzzle; lia).
  assert (∀ col', col' ≠ 0%nat →
            cell_at (grid (new_Puzzle 2)) 0 col' ≠ Some {[1]}) as Hfree.
  { intros [|[|col']] Hne; [done| |]; vm_compute; discriminate. }
  split; [exact Hin|]. split; [exact Hv|]. split; [exact Hfree|].
  exact (setValue_unique_in_row (new_Puzzle 2) 0 0 1 Hin Hv Hfree).
Defined.

End fixed_cells.

(** ** How calls compose *)

Section composition.

Implicit Types (p : Puzzle).

(** X8: the first assignment on a freshly constructed [Puzzle(N)], with
    row < N, col < N and 1 <= v <= N, returns the grid in which the cell
    (row, col) is {v}, every other cell of that row is {1..N} without v, and
    every other row is still full. *)
Theorem setValue_on_new_Puzzle (N row col : nat) (v : Z) :
  (row < N)%nat → (col < N)%nat → 1 ≤ v ≤ Z.of_nat N →
  setValue row col v (new_Puzzle N) =
  Returns () (mkPuzzle
    (<[row := <[col := {[v]}]> (replicate N (defaultData N ∖ {[v]}))]>
       (replicate N (replicate N (defaultData N))))).
Proof.
  intros Hrow Hcol Hv.
  rewrite (setValue_returns _ row col v (replicate N (defaultData N))).
  - rewrite new_Puzzle_replicate. do 3 f_equal.
    rewrite list_fmap_insert, erase_step_singleton, fmap_replicate.
    rewrite erase_step_decide. case_decide as Hone; [|done].
    assert (N = 1%nat) as ->.
    { assert (1 ∈ defaultData N) as H1 by (apply elem_of_defaultData; lia).
      assert (Z.of_nat N ∈ defaultData N) as HN by (apply elem_of_defaultData; lia).
      rewrite Hone in H1, HN. apply elem_of_singleton in H1, HN. lia. }
    by destruct col; [|lia].
  - rewrite new_Puzzle_replicate. by apply lookup_replicate_2.
  - by rewrite length_replicate.
  - by rewrite length_new_Puzzle.
Qed.

Lemma setValue_on_new_Puzzle_witness :
  setValue 1 1 5 (new_Puzzle 9) =
  Returns () (mkPuzzle
    (<[1%nat := <[1%nat := {[5]}]> (replicate 9 (defaultData 9 ∖ {[5]}))]>
       (replicate 9 (replicate 9 (defaultData 9))))).
Proof.
  apply (setValue_on_new_Puzzle 9 1 1 5); lia.
Defined.

(** X9: two [setValue] calls on different rows commute: with both cells in
    range and both values in 1..N, the two orders return the same grid. *)
Theorem setValue_rows_commute p (r1 c1 r2 c2 : nat) (v1 v2 : Z) :
  r1 ≠ r2 →
  in_range (grid p) r1 c1 → in_range (grid p) r2 c2 →
  1 ≤ v1 ≤ Z.of_nat (length (grid p)) →
  1 ≤ v2 ≤ Z.of_nat (length (grid p)) →
  ∃ p', setValues [(r1, c1, v1); (r2, c2, v2)] p = Returns () p' ∧
        setValues [(r2, c2, v2); (r1, c1, v1)] p = Returns () p'.
Proof.
  intros Hne (row1 & Hrow1 & Hc1)%in_range_inv (row2 & Hrow2 & Hc2)%in_range_inv
    Hv1 Hv2.
  pose proof (setValue_returns p r1 c1 v1 row1 Hrow1 Hc1 Hv1) as Hfirst1.
  pose proof (setValue_returns p r2 c2 v2 row2 Hrow2 Hc2 Hv2) as Hfirst2.
  set (row1' := erase_step v1 <$> <[c1 := {[v1]}]> row1) in *.
  set (row2' := erase_step v2 <$> <[c2 := {[v2]}]> row2) in *.
  assert (setValue r2 c2 v2 (mkPuzzle (<[r1 := row1']> (grid p))) =
          Returns () (mkPuzzle (<[r2 := row2']> (<[r1 := row1']> (grid p)))))
    as Hsecond2.
  { apply setValue_returns; simpl; [|done|by rewrite length_insert].
    by rewrite list_lookup_insert_ne. }
  assert (setValue r1 c1 v1 (mkPuzzle (<[r2 := row2']> (grid p))) =
          Returns () (mkPuzzle (<[r1 := row1']> (<[r2 := row2']> (grid p)))))
    as Hsecond1.
  { apply setValue_returns; simpl; [|done|by rewrite length_insert].
    by rewrite list_lookup_insert_ne. }
  exists (mkPuzzle (<[r2 := row2']> (<[r1 := row1']> (grid p)))). split.
  - by rewrite (setValues_cons _ _ _ _ _ _ Hfirst1), (setValues_cons _ _ _ _ _ _ Hsecond2).
  - rewrite (setValues_cons _ _ _ _ _ _ Hfirst2), (setValues_cons _ _ _ _ _ _ Hsecond1).
    simpl. unfold mret, method_ret. do 2 f_equal.
    by apply list_insert_insert_ne.
Qed.

Lemma setValue_rows_commute_witness :
  in_range (grid (new_Puzzle 2)) 0 0 ∧ in_range (grid (new_Puzzle 2)) 1 0 ∧
  ∃ p', setValues [(0%nat, 0%nat, 1); (1%nat, 0%nat, 1)] (new_Puzzle 2) = Returns () p' ∧
        setValues [(1%nat, 0%nat, 1); (0%nat, 0%nat, 1)] (new_Puzzle 2) = Returns () p'.
Proof.
  assert (in_range (grid (new_Puzzle 2)) 0 0) as H0
    by (apply in_range_new_Puzzle; lia).
  assert (in_range (grid (new_Puzzle 2)) 1 0) as H1
    by (apply in_range_new_Puzzle; lia).
  split; [exact H0|]. split; [exact H1|].
  apply (setValue_rows_commute (new_Puzzle 2) 0 0 1 0 1 1);
    [lia | exact H0 | exact H1 | rewrite length_new_Puzzle; lia
     | rewrite length_new_Puzzle; lia].
Defined.

(** X10: two calls on the same row do not commute in general.  When a third
    cell of the row holds exactly {v1, v2}, assigning v1 to one cell and
    then v2 to another leaves it {v2}, and the other order leaves it {v1}:
    whichever value is erased first, the guard on cells fixed to the
    assigned value then keeps the one that is left. *)
Theorem setValue_same_row_order p (row c1 c2 c3 : nat) (v1 v2 : Z) :
  c1 ≠ c2 → c1 ≠ c3 → c2 ≠ c3 → v1 ≠ v2 →
  in_range (grid p) row c1 → in_range (grid p) row c2 →
  1 ≤ v1 ≤ Z.of_nat (length (grid p)) →
  1 ≤ v2 ≤ Z.of_nat (length (grid p)) →
  cell_at (grid p) row c3 = Some {[v1; v2]} →
  ∃ p12 p21,
    setValues [(row, c1, v1); (row, c2, v2)] p = Returns () p12 ∧
    setValues [(row, c2, v2); (row, c1, v1)] p = Returns () p21 ∧
    cell_at (grid p12) row c3 = Some {[v2]} ∧
    cell_at (grid p21) row c3 = Some {[v1]}.
Proof.
  intros H12 H13 H23 Hv Hin1 Hin2 Hv1 Hv2 Hcell.
  assert (∀ a b ca cb, a ≠ b → ca ≠ cb → ca ≠ c3 → cb ≠ c3 →
            in_range (grid p) row ca → in_range (grid p) row cb →
            1 ≤ a ≤ Z.of_nat (length (grid p)) →
            1 ≤ b ≤ Z.of_nat (length (grid p)) →
            cell_at (grid p) row c3 = Some {[a; b]} →
            ∃ q, setValues [(row, ca, a); (row, cb, b)] p = Returns () q ∧
                 cell_at (grid q) row c3 = Some {[b]}) as Hgen.
  { clear. intros a b ca cb Hab Hcab Hca Hcb Hina Hinb Ha Hb Hcell.
    destruct (setValue_cells p row ca a Hina Ha)
      as (p1 & Hret1 & Hlen1 & _ & Hrow1 & _).
    assert (in_range (grid p1) row cb) as Hinb1.
    { unfold in_range. rewrite Hrow1 by done. by apply fmap_is_Some. }
    destruct (setValue_cells p1 row cb b Hinb1 ltac:(by rewrite Hlen1))
      as (p2 & Hret2 & _ & _ & Hrow2 & _).
    exists p2. split.
    - rewrite (setValues_cons _ _ _ _ _ _ Hret1).
      by rewrite (setValues_cons _ _ _ _ _ _ Hret2).
    - rewrite Hrow2, Hrow1, Hcell by done. simpl. f_equal.
      assert (erase_step a {[a; b]} = {[b]}) as ->.
      { rewrite erase_step_decide. case_decide as Hone; [|set_solver].
        assert (b ∈ ({[a]} : Options)) by (rewrite <- Hone; set_solver).
        set_solver. }
      apply erase_step_singleton. }
  destruct (Hgen v1 v2 c1 c2) as (p12 & Hrun12 & Hc12); try done.
  destruct (Hgen v2 v1 c2 c1) as (p21 & Hrun21 & Hc21); try done.
  { by rewrite (comm_L (∪) {[v2]} {[v1]}). }
  by exists p12, p21.
Qed.

Lemma setValue_same_row_order_witness :
  ∃ p12 p21,
    setValues [(0%nat, 0%nat, 1); (0%nat, 1%nat, 2)]
      (mkPuzzle [[{[3]}; {[1; 2]}; {[1; 2]}];
                 [{[1; 2; 3]}; {[1; 2; 3]}; {[1; 2; 3]}];
                 [{[1; 2; 3]}; {[1; 2; 3]}; {[1; 2; 3]}]]) = Returns () p12 ∧
    setValues [(0%nat, 1%nat, 2); (0%nat, 0%nat, 1)]
      (mkPuzzle [[{[3]}; {[1; 2]}; {[1; 2]}];
                 [{[1; 2; 3]}; {[1; 2; 3]}; {[1; 2; 3]}];
                 [{[1; 2; 3]}; {[1; 2; 3]}; {[1; 2; 3]}]]) = Returns () p21 ∧
    cell_at (grid p12) 0 2 = Some {[2]} ∧
    cell_at (grid p21) 0 2 = Some {[1]}.
Proof.
  apply (setValue_same_row_order
           (mkPuzzle [[{[3]}; {[1; 2]}; {[1; 2]}];
                 [{[1; 2; 3]}; {[1; 2; 3]}; {[1; 2; 3]}];
                 [{[1; 2; 3]}; {[1; 2; 3]}; {[1; 2; 3]}]])
           0 0 1 2 1 2);
    try lia; try (by eexists); try (simpl; lia).
Defined.

End composition.
